(** * notasimdlib.h: the macro-generated vector types, elementwise
      operations, reductions and dot product

    The header generates, for a scalar type [T] and the register width
    [XLEN], a struct [simd_t(T)] holding [T v[VLEN(T)]] and loops over it.
    The embedding keeps the header's names.  A run that reaches undefined
    behaviour of C (an out-of-bounds subscript, a signed overflow, an
    integer division by zero) is [None]; everything else is [Some]. *)

From Stdlib Require Import ZArith Lia SpecFloat String Ascii.
From stdpp Require Import base option list strings.

Local Open Scope Z_scope.

(** ** Scalar types *)

(** What the macros need of a scalar type [T]: its [sizeof], the value of
    the initialiser [T accum = 0], and the four operators, each followed
    by the conversion back to [T] that the assignment performs. *)
Record Scalar (T : Type) : Type := {
  sizeof : Z;
  cst0 : T;
  op_add : T → T → option T;
  op_sub : T → T → option T;
  op_mul : T → T → option T;
  op_div : T → T → option T
}.
Arguments sizeof {T} _.
Arguments cst0 {T} _.
Arguments op_add {T} _ _ _.
Arguments op_sub {T} _ _ _.
Arguments op_mul {T} _ _ _.
Arguments op_div {T} _ _ _.

(** The operator tokens the header documents for its [op] parameter. *)
Inductive operator : Set := Plus | Minus | Star | Slash.

Definition eval_op {T} (ST : Scalar T) (op : operator) : T → T → option T :=
  match op with
  | Plus => op_add ST
  | Minus => op_sub ST
  | Star => op_mul ST
  | Slash => op_div ST
  end.

(** ** Integer scalar types (LP64, two's complement, [int] of 32 bits) *)

Module CInt.

Inductive int_type : Set :=
  | I8 | U8 | I16 | U16 | I32 | U32 | I64 | U64.

Definition bits (it : int_type) : Z :=
  match it with
  | I8 | U8 => 8
  | I16 | U16 => 16
  | I32 | U32 => 32
  | I64 | U64 => 64
  end.

Definition signed (it : int_type) : bool :=
  match it with
  | I8 | I16 | I32 | I64 => true
  | U8 | U16 | U32 | U64 => false
  end.

Definition min_val (w : Z) (sg : bool) : Z := if sg then - 2 ^ (w - 1) else 0.
Definition max_val (w : Z) (sg : bool) : Z := if sg then 2 ^ (w - 1) - 1 else 2 ^ w - 1.

Definition in_range (w : Z) (sg : bool) (z : Z) : bool :=
  (min_val w sg <=? z) && (z <=? max_val w sg).

(** Conversion to a [w]-bit type: reduction modulo [2^w], into the signed
    range for a signed type (what GCC defines for the narrowing case). *)
Definition wrap (w : Z) (sg : bool) (z : Z) : Z :=
  if sg then (z + 2 ^ (w - 1)) mod 2 ^ w - 2 ^ (w - 1) else z mod 2 ^ w.

(** The type an operand of type [it] is promoted to: [int] for the types
    narrower than [int], the type itself otherwise. *)
Definition promoted (it : int_type) : Z * bool :=
  if bits it <? 32 then (32, true) else (bits it, signed it).

(** [x op y] computed in the promoted type, then stored into an [it]:
    an overflow of a signed computation is undefined, an unsigned one
    wraps. *)
Definition arith (it : int_type) (f : Z → Z → Z) (x y : Z) : option Z :=
  let r := f x y in
  let '(w, sg) := promoted it in
  if sg then
    if in_range w true r then Some (wrap (bits it) (signed it) r) else None
  else Some (wrap (bits it) (signed it) r).

(** [/] truncates towards zero; a zero divisor is undefined. *)
Definition divide (it : int_type) (x y : Z) : option Z :=
  if y =? 0 then None else arith it Z.quot x y.

Definition scalar (it : int_type) : Scalar Z := {|
  sizeof := bits it / 8;
  cst0 := 0;
  op_add := arith it Z.add;
  op_sub := arith it Z.sub;
  op_mul := arith it Z.mul;
  op_div := divide it
|}.

End CInt.

(** ** The scalar type [float] (IEEE 754 binary32, round to nearest even) *)

Module CFloat.

Definition prec : Z := 24.
Definition emax : Z := 128.

Definition float : Type := spec_float.

(** The [float] nearest to the integer constant [z]. *)
Definition of_Z (z : Z) : float := binary_normalize prec emax z 0 false.

Definition pos_inf : float := S754_infinity false.
Definition neg_inf : float := S754_infinity true.
Definition nan : float := S754_nan.

Definition scalar : Scalar float := {|
  sizeof := 4;
  cst0 := S754_zero false;
  op_add := λ x y, Some (SFadd prec emax x y);
  op_sub := λ x y, Some (SFsub prec emax x y);
  op_mul := λ x y, Some (SFmul prec emax x y);
  op_div := λ x y, Some (SFdiv prec emax x y)
|}.

End CFloat.

(** ** The header *)

(** [size_t] is 64 bits wide; [sizeof] yields a [size_t], so the division
    in [VLEN] is carried out on [size_t] operands. *)
Definition size_t_bits : Z := 64.
Definition to_size_t (z : Z) : Z := z mod 2 ^ size_t_bits.

(** [for (int i = 0; i < n; i++) body]: the state after the loop, [i]
    being the current index and [n] the number of iterations left. *)
Fixpoint for_loop {St : Type} (n i : nat) (body : nat → St → option St) (s : St)
    : option St :=
  match n with
  | O => Some s
  | S n' => s' ← body i s; for_loop n' (S i) body s'
  end.

(** [l[i] = x]: undefined outside the array. *)
Definition store {A : Type} (l : list A) (i : nat) (x : A) : option (list A) :=
  if decide (i < length l)%nat then Some (<[i:=x]> l) else None.

(** [typedef struct { T v[VLEN(T)]; } simd_t(T)]: the contents of [v]. *)
Abbreviation simd_t T := (list T) (only parsing).

Section Header.

Context {T : Type}.
Variable ST : Scalar T.
Variable XLEN : Z.

(** [#define VLEN(T) (XLEN / (8 * sizeof(T)))] *)
Definition VLEN : Z := to_size_t XLEN / to_size_t (8 * sizeof ST).

(** The number of iterations of [for (int i = 0; i < VLEN(T); i++)].
    The index is an [int] and the bound a [size_t]: the count is exact
    while [VLEN(T)] does not exceed [INT_MAX], as it does for every
    [XLEN] that is an [int] constant. *)
Definition vlen : nat := Z.to_nat VLEN.

(** The contents of a [simd_t(T)] fill its array: [VLEN(T)] elements. *)
Definition wf_simd (a : simd_t T) : Prop := length a = vlen.

(** [simd_t(T) c;] without an initialiser: cell [i] holds the
    indeterminate value [indet i]. *)
Definition uninit (indet : nat → T) : simd_t T := indet <$> seq 0 vlen.

(** [a.v[j] op b.v[j]], the value stored at index [j]. *)
Definition elem_at (op : operator) (a b : simd_t T) (j : nat) : option T :=
  x ← a !! j; y ← b !! j; eval_op ST op x y.

(** The frame of a function generated by [decl_simd_bin_op]: the
    parameters [a] and [b], passed by value, and the local [c]. *)
Record frame : Type := { arg_a : simd_t T; arg_b : simd_t T; loc_c : simd_t T }.

(** [c.v[i] = a.v[i] op b.v[i];] *)
Definition bin_op_body (op : operator) (i : nat) (fr : frame) : option frame :=
  x ← arg_a fr !! i;
  y ← arg_b fr !! i;
  r ← eval_op ST op x y;
  c' ← store (loc_c fr) i r;
  Some {| arg_a := arg_a fr; arg_b := arg_b fr; loc_c := c' |}.

(** The frame when the loop of the generated function is left. *)
Definition bin_op_run (op : operator) (indet : nat → T) (a b : simd_t T)
    : option frame :=
  for_loop vlen 0 (bin_op_body op) {| arg_a := a; arg_b := b; loc_c := uninit indet |}.

(** [decl_simd_bin_op(name, T, op)]: the function it defines, [return c]. *)
Definition decl_simd_bin_op (op : operator) (indet : nat → T) (a b : simd_t T)
    : option (simd_t T) :=
  fr ← bin_op_run op indet a b; Some (loc_c fr).

(** [simd_bin_op(name, T, a, b)]: a call of the declared function [f];
    the argument expressions are evaluated once, before the call. *)
Definition simd_bin_op (f : simd_t T → simd_t T → option (simd_t T))
    (a b : option (simd_t T)) : option (simd_t T) :=
  va ← a; vb ← b; f va vb.

(** Macro parameters are expressions: they are evaluated wherever the
    expansion mentions them, here once per iteration. *)

(** [simd_reduce_func(T, func, ...)] *)
Definition simd_reduce_func {Args : Type} (func : T → nat → Args → option T)
    (args : option Args) : option T :=
  for_loop vlen 0 (λ i accum, vs ← args; func accum i vs) (cst0 ST).

(** [simd_reduce_expr(T, expr, ...)]: [expr] reads [accum] and [i]; the
    expansion does not mention the variadic arguments. *)
Definition simd_reduce_expr {Args : Type} (expr : T → nat → option T)
    (args : option Args) : option T :=
  for_loop vlen 0 (λ i accum, expr accum i) (cst0 ST).

(** [simd_apply_sum(T, a)]: [accum += (a).v[i];] *)
Definition simd_apply_sum (a : option (simd_t T)) : option T :=
  for_loop vlen 0 (λ i accum, va ← a; x ← va !! i; op_add ST accum x) (cst0 ST).

(** [simd_apply_binop(T, a, b, op)]: [c.v[i] = (a).v[i] op (b).v[i];] *)
Definition simd_apply_binop (indet : nat → T) (a b : option (simd_t T)) (op : operator)
    : option (simd_t T) :=
  for_loop vlen 0
    (λ i c, va ← a; x ← va !! i; vb ← b; y ← vb !! i;
            r ← eval_op ST op x y; store c i r)
    (uninit indet).

Definition simd_apply_add indet a b := simd_apply_binop indet a b Plus.
Definition simd_apply_sub indet a b := simd_apply_binop indet a b Minus.
Definition simd_apply_mul indet a b := simd_apply_binop indet a b Star.
Definition simd_apply_div indet a b := simd_apply_binop indet a b Slash.

(** [simd_apply_dot(T, a, b)] expands to
    [simd_apply_sum(T, simd_apply_mul(T, a, b))]. *)
Definition simd_apply_dot (indet : nat → T) (a b : option (simd_t T)) : option T :=
  simd_apply_sum (simd_apply_mul indet a b).

End Header.

Arguments frame : clear implicits.

(** ** What the specification says, in its own words *)

Section Spec.

Context {T : Type}.
Variable ST : Scalar T.

(** "a zero-initialized, ascending-index left-to-right sum" *)
Definition sum_spec (l : list T) : option T :=
  foldl (λ acc x, s ← acc; op_add ST s x) (Some (cst0 ST)) l.

(** "elementwise multiplication" *)
Definition mul_spec (a b : list T) : option (list T) :=
  mapM (λ p, op_mul ST p.1 p.2) (zip a b).

(** "elementwise multiply followed by a sum reduction" *)
Definition dot_spec (a b : list T) : option T :=
  ps ← mul_spec a b; sum_spec ps.

(** "for i from 0 to elementCount-1 in ascending order, sets
    accumulator = combiningFunction(accumulator, i, vectors...)",
    "starting from a zero-valued accumulator" *)
Definition fold_spec (n : nat) (step : T → nat → option T) : option T :=
  foldl (λ acc i, s ← acc; step s i) (Some (cst0 ST)) (seq 0 n).

(** "result[i] = operatorSymbol(a[i], b[i])" for each index of [a] and
    [b]; a result exists exactly when every such element does. *)
Definition elementwise (f : T → T → option T) (n : nat) (a b : list T)
    (res : option (list T)) : Prop :=
  (is_Some res ↔ ∀ i x y, a !! i = Some x → b !! i = Some y → is_Some (f x y))
  ∧ (∀ c, res = Some c →
       length c = n ∧ ∀ i x y, a !! i = Some x → b !! i = Some y → c !! i = f x y).

End Spec.

(** ** The example program: [dot_func] *)

(** [return accum + (a.v[idx] * b.v[idx]);] on [float]. *)
Definition dot_func (accum : CFloat.float) (idx : nat)
    (ab : simd_t CFloat.float * simd_t CFloat.float) : option CFloat.float :=
  x ← ab.1 !! idx; y ← ab.2 !! idx;
  p ← op_mul CFloat.scalar x y; op_add CFloat.scalar accum p.

(** The inline expression of the example,
    [(accum + (veca.v[i] * vecb.v[i]))], closed over [veca] and [vecb]. *)
Definition dot_expr (veca vecb : simd_t CFloat.float) (accum : CFloat.float) (i : nat)
    : option CFloat.float :=
  x ← veca !! i; y ← vecb !! i;
  p ← op_mul CFloat.scalar x y; op_add CFloat.scalar accum p.

(** ** Concrete instances *)

(** The scalar type [int]. *)
Definition i32 : Scalar Z := CInt.scalar CInt.I32.

(** A vector of [float] constants. *)
Definition floats (l : list Z) : simd_t CFloat.float := CFloat.of_Z <$> l.

(** [#ifndef XLEN] / [#define XLEN 128] / [#endif]: the width the header
    works with when the including file has defined [XLEN] as [user], or
    has not defined it. *)
Definition XLEN_or_default (user : option Z) : Z := default 128 user.

(** The values of the integer type [it]. *)
Definition int_value (it : CInt.int_type) (z : Z) : Prop :=
  CInt.in_range (CInt.bits it) (CInt.signed it) z = true.

(** The sum of integers and the dot product of integer vectors, as
    numbers. *)
Definition Zsum (l : list Z) : Z := foldr Z.add 0 l.
Definition Zdot (a b : list Z) : Z := Zsum (zip_with Z.mul a b).

(** The operators on integers as numbers; [/] truncates. *)
Definition Z_op (op : operator) : Z → Z → Z :=
  match op with
  | Plus => Z.add
  | Minus => Z.sub
  | Star => Z.mul
  | Slash => Z.quot
  end.

(** ** The example program: declarations and [main] *)





(** ** Generated names *)

(** Tokens are given by their spelling. *)

(** [#define PPCAT_NX(A, B) A##B] *)
Definition PPCAT_NX (A B : string) : string := A +:+ B.

(** Whether the token [p] occurs in [s] as a contiguous part. *)
Fixpoint contains (p s : string) : bool :=
  String.prefix p s
  || match s with
     | EmptyString => false
     | String _ s' => contains p s'
     end.

Section Names.

(** The token that the macro [XLEN] is defined as; no other token of the
    names is a macro. *)
Variable xlen : string.

(** Macro expansion of an argument that is one token. *)
Definition expand (tok : string) : string :=
  if decide (tok = "XLEN"%string) then xlen else tok.

(** [#define PPCAT(A, B) PPCAT_NX(A, B)]: the arguments are expanded
    before they are pasted. *)
Definition PPCAT (A B : string) : string := PPCAT_NX (expand A) (expand B).

(** [#define simd_t(T) PPCAT(simd_,PPCAT(v,PPCAT(T,PPCAT(XLEN,_t))))]:
    the name of the type. *)
Definition simd_t_name (T : string) : string :=
  PPCAT "simd_" (PPCAT "v" (PPCAT T (PPCAT "XLEN" "_t"))).

(** [#define simd_op_name(T,name) PPCAT(name,PPCAT(_,simd_t(T)))] *)
Definition simd_op_name (T name : string) : string :=
  PPCAT name (PPCAT "_" (simd_t_name T)).

End Names.

(** ** Loops *)

Section Loops.

Context {St : Type}.
Implicit Types (body : nat → St → option St) (s : St).

Lemma for_loop_ext body1 body2 n i s :
  (∀ j s', (i ≤ j < i + n)%nat → body1 j s' = body2 j s') →
  for_loop n i body1 s = for_loop n i body2 s.
Proof.
  revert i s. induction n as [|n IH]; intros i s Hb; simpl; [done|].
  rewrite Hb by lia. destruct (body2 i s) as [s'|]; simpl; [|done].
  apply IH. intros j s'' Hj. apply Hb. lia.
Qed.

Lemma foldl_bind_None {B} (g : B → St → option St) (l : list B) :
  foldl (λ acc j, s ← acc; g j s) None l = None.
Proof. induction l as [|j l IH]; simpl; [done|apply IH]. Qed.

(** The loop is the left fold of its body over the ascending indices. *)
Lemma for_loop_foldl body n i s :
  for_loop n i body s = foldl (λ acc j, s' ← acc; body j s') (Some s) (seq i n).
Proof.
  revert i s. induction n as [|n IH]; intros i s; simpl; [done|].
  destruct (body i s) as [s'|]; simpl; [apply IH|].
  symmetry. apply foldl_bind_None.
Qed.

Lemma for_loop_zero body i s : for_loop 0 i body s = Some s.
Proof. done. Qed.

End Loops.

Section StoreLoop.

Context {T : Type}.
Implicit Types (elem : nat → option T) (c : list T).

Lemma store_Some c i x : (i < length c)%nat → store c i x = Some (<[i:=x]> c).
Proof. intros Hi. unfold store. by rewrite decide_True. Qed.

(** A loop that stores [elem j] into cell [j] overwrites the cells
    [i .. i+k-1] and nothing else. *)
Lemma for_loop_store elem k i c :
  (i + k ≤ length c)%nat →
  for_loop k i (λ j c', r ← elem j; store c' j r) c
  = rs ← mapM elem (seq i k); Some (take i c ++ rs ++ drop (i + k) c).
Proof.
  revert i c. induction k as [|k IH]; intros i c Hlen; simpl.
  - rewrite Nat.add_0_r. by rewrite take_drop.
  - destruct (elem i) as [r|]; simpl; [|done].
    rewrite store_Some by lia. simpl.
    rewrite IH by (rewrite length_insert; lia).
    destruct (mapM elem (seq (S i) k)) as [rs|]; simpl; [|done].
    f_equal.
    assert (Hi : (i < length c)%nat) by lia.
    destruct (lookup_lt_is_Some_2 c i Hi) as [x0 Hx0].
    rewrite (take_S_r (<[i:=r]> c) i r) by (by rewrite list_lookup_insert_eq).
    rewrite take_insert_ge by lia.
    rewrite drop_insert_lt by lia.
    rewrite <- app_assoc. simpl.
    by replace (i + S k)%nat with (S i + k)%nat by lia.
Qed.

Lemma for_loop_store_all elem n c :
  length c = n →
  for_loop n 0 (λ j c', r ← elem j; store c' j r) c = mapM elem (seq 0 n).
Proof.
  intros <-. rewrite for_loop_store by lia.
  destruct (mapM elem (seq 0 (length c))) as [rs|]; simpl; [|done].
  rewrite drop_all. by rewrite app_nil_r.
Qed.

End StoreLoop.

(** ** The elementwise operations *)

Section Elementwise.

Context {T : Type}.
Variable ST : Scalar T.
Variable XLEN : Z.

Local Abbreviation len := (vlen ST XLEN).
Local Abbreviation wf := (wf_simd ST XLEN).

Lemma length_uninit indet : length (uninit ST XLEN indet) = len.
Proof. unfold uninit. by rewrite length_fmap, length_seq. Qed.

(** The expression-level generator writes every cell of [c]: nothing of
    the indeterminate contents is left in the result. *)
Lemma simd_apply_binop_expr indet (ea eb : option (simd_t T)) op :
  simd_apply_binop ST XLEN indet ea eb op
  = mapM (λ j, va ← ea; vb ← eb; elem_at ST op va vb j) (seq 0 len).
Proof.
  unfold simd_apply_binop.
  rewrite <- (for_loop_store_all _ _ _ (length_uninit indet)).
  apply for_loop_ext. intros j c _. unfold elem_at.
  destruct ea as [a|]; simpl; [|done].
  destruct (a !! j) as [x|]; simpl; [|by destruct eb].
  destruct eb as [b|]; simpl; [|done].
  by destruct (b !! j) as [y|].
Qed.

Lemma simd_apply_binop_mapM indet a b op :
  simd_apply_binop ST XLEN indet (Some a) (Some b) op
  = mapM (elem_at ST op a b) (seq 0 len).
Proof. by rewrite simd_apply_binop_expr. Qed.

Lemma bin_op_body_eq op i a b c :
  bin_op_body ST op i {| arg_a := a; arg_b := b; loc_c := c |}
  = c' ← (r ← elem_at ST op a b i; store c i r);
    Some {| arg_a := a; arg_b := b; loc_c := c' |}.
Proof.
  unfold bin_op_body, elem_at. simpl.
  destruct (a !! i) as [x|]; simpl; [|done].
  destruct (b !! i) as [y|]; simpl; [|done].
  by destruct (eval_op ST op x y) as [r|].
Qed.

(** The loop of a declared function leaves [a] and [b] as they were and
    writes [c] as the expression-level generator does. *)
Lemma bin_op_loop op n i a b c :
  for_loop n i (bin_op_body ST op) {| arg_a := a; arg_b := b; loc_c := c |}
  = c' ← for_loop n i (λ j c', r ← elem_at ST op a b j; store c' j r) c;
    Some {| arg_a := a; arg_b := b; loc_c := c' |}.
Proof.
  revert i c. induction n as [|n IH]; intros i c; cbn [for_loop]; [done|].
  rewrite bin_op_body_eq.
  destruct (elem_at ST op a b i) as [r|]; simpl; [|done].
  destruct (store c i r) as [c1|]; simpl; [|done].
  apply IH.
Qed.

Lemma decl_simd_bin_op_mapM op indet a b :
  decl_simd_bin_op ST XLEN op indet a b = mapM (elem_at ST op a b) (seq 0 len).
Proof.
  unfold decl_simd_bin_op, bin_op_run. rewrite bin_op_loop.
  rewrite (for_loop_store_all _ _ _ (length_uninit indet)).
  by destruct (mapM _ _).
Qed.

(** Index by index, the list [mapM (elem_at ST op a b) (seq 0 len)] is what
    the specification asks of an elementwise operation. *)
Lemma mapM_elem_at_elementwise op a b :
  wf a → wf b →
  elementwise (eval_op ST op) len a b (mapM (elem_at ST op a b) (seq 0 len)).
Proof.
  intros Ha Hb. unfold wf_simd in *. split.
  - rewrite mapM_is_Some, Forall_forall. split.
    + intros Hall i x y Hx Hy.
      assert (Hi : (i < len)%nat) by (rewrite <- Ha; by eapply lookup_lt_Some).
      assert (Hin : i ∈ seq 0 len)
        by (apply list_elem_of_lookup; exists i; by rewrite lookup_seq_lt).
      specialize (Hall i Hin). simpl in Hall. unfold elem_at in Hall.
      by rewrite Hx, Hy in Hall.
    + intros Hall j Hj. apply list_elem_of_lookup in Hj as [k Hk].
      apply lookup_seq in Hk as [-> Hk]. simpl.
      destruct (lookup_lt_is_Some_2 a k) as [x Hx]; [lia|].
      destruct (lookup_lt_is_Some_2 b k) as [y Hy]; [lia|].
      unfold compose, elem_at. rewrite Hx, Hy. simpl. by eapply Hall.
  - intros c Hc. pose proof (length_mapM _ _ _ Hc) as Hl.
    rewrite length_seq in Hl. split; [done|].
    intros i x y Hx Hy.
    assert (Hi : (i < len)%nat) by (rewrite <- Ha; by eapply lookup_lt_Some).
    apply mapM_Some_1 in Hc.
    destruct (lookup_lt_is_Some_2 c i) as [r Hr]; [lia|].
    pose proof (Forall2_lookup_lr _ _ _ i i r Hc) as Hlr.
    rewrite lookup_seq_lt in Hlr by done. specialize (Hlr eq_refl Hr).
    unfold elem_at in Hlr. rewrite Hx, Hy in Hlr. simpl in Hlr.
    by rewrite Hr, Hlr.
Qed.

(** On well-formed operands the per-index elements are those of the
    zipped operands. *)
Lemma mapM_elem_at_zip op a b :
  wf a → wf b →
  mapM (elem_at ST op a b) (seq 0 len) = mapM (λ p, eval_op ST op p.1 p.2) (zip a b).
Proof.
  unfold wf_simd. generalize (vlen ST XLEN) as m.
  intros m Ha Hb.
  assert (Hgen : ∀ (a b : list T) k,
    mapM (λ j, x ← a !! (j - k)%nat; y ← b !! (j - k)%nat; eval_op ST op x y)
         (seq k (length a))
    = mapM (λ p, eval_op ST op p.1 p.2) (zip a (take (length a) b))
    ∨ (length b < length a)%nat).
  { clear. intros a. induction a as [|x a IH]; intros b k; simpl; [by left|].
    destruct b as [|y b]; simpl; [right; lia|].
    destruct (IH b (S k)) as [IH'|IH']; [left|right; lia].
    replace (k - k)%nat with 0%nat by lia. simpl.
    destruct (eval_op ST op x y) as [r|]; simpl; [|done].
    rewrite <- IH'. f_equal.
    apply Forall_mapM_ext, Forall_forall. intros j Hj.
    apply list_elem_of_lookup in Hj as [i Hi]. apply lookup_seq in Hi as [-> Hi].
    by replace (S k + i - k)%nat with (S (S k + i - S k)) by lia. }
  destruct (Hgen a b 0%nat) as [H|H]; [|lia].
  rewrite <- Ha. rewrite (take_ge b) in H by lia. rewrite <- H.
  apply mapM_ext. intros j. unfold elem_at. by rewrite Nat.sub_0_r.
Qed.

End Elementwise.

(** ** The reductions *)

Section Reductions.

Context {T : Type}.
Variable ST : Scalar T.
Variable XLEN : Z.

Local Abbreviation len := (vlen ST XLEN).
Local Abbreviation wf := (wf_simd ST XLEN).

(** A fold over the indices of [l] that only reads [l] at the current
    index is a fold over the elements of [l]. *)
Lemma foldl_seq_lookup {A B} (f : B → nat → B) (g : B → A → B) (l : list A) k acc :
  (∀ s i x, l !! i = Some x → f s (k + i)%nat = g s x) →
  foldl f acc (seq k (length l)) = foldl g acc l.
Proof.
  revert k acc. induction l as [|x l IH]; intros k acc Hfg; simpl; [done|].
  rewrite <- (Hfg acc 0%nat x eq_refl), Nat.add_0_r.
  apply IH. intros s i y Hy.
  rewrite <- (Hfg s (S i) y Hy). f_equal. lia.
Qed.

Lemma simd_reduce_func_fold {Args} (func : T → nat → Args → option T) vs :
  simd_reduce_func ST XLEN func (Some vs) = fold_spec ST len (λ s i, func s i vs).
Proof. unfold simd_reduce_func, fold_spec. by rewrite for_loop_foldl. Qed.

Lemma simd_apply_sum_spec a :
  wf a → simd_apply_sum ST XLEN (Some a) = sum_spec ST a.
Proof.
  unfold wf_simd. intros Ha.
  unfold simd_apply_sum, sum_spec. rewrite for_loop_foldl, <- Ha.
  apply foldl_seq_lookup. intros s i x Hx. simpl.
  destruct s as [s|]; simpl; [|done]. by rewrite Hx.
Qed.

(** The argument of [simd_apply_sum] is evaluated in every iteration,
    hence not at all when there is none. *)
Lemma simd_apply_sum_bind (e : option (simd_t T)) :
  (len = 0%nat → is_Some e) →
  simd_apply_sum ST XLEN e = p ← e; simd_apply_sum ST XLEN (Some p).
Proof.
  intros He. destruct e as [p|]; simpl; [done|].
  unfold simd_apply_sum. destruct len as [|k]; simpl; [|done].
  by destruct He as [? ?].
Qed.

Lemma simd_apply_dot_sum_mul indet indet' a b :
  simd_apply_dot ST XLEN indet (Some a) (Some b)
  = p ← simd_apply_mul ST XLEN indet' (Some a) (Some b);
    simd_apply_sum ST XLEN (Some p).
Proof.
  unfold simd_apply_dot, simd_apply_mul.
  rewrite (simd_apply_binop_mapM ST XLEN indet), (simd_apply_binop_mapM ST XLEN indet').
  apply simd_apply_sum_bind. intros ->. by eexists.
Qed.

Lemma VLEN_div W :
  0 ≤ W < 2 ^ 64 → 0 < sizeof ST → 8 * sizeof ST < 2 ^ 64 →
  VLEN ST W = W / (8 * sizeof ST).
Proof.
  intros HW Hs Hs8. unfold VLEN, to_size_t, size_t_bits.
  by rewrite !Z.mod_small by lia.
Qed.

End Reductions.

(** ** The scenarios of the specification *)

(** On [float], with [XLEN] 128 and 256. *)
Example float_add_scenario indet :
  simd_apply_add CFloat.scalar 128 indet
    (Some (floats [1; 2; 3; 4])) (Some (floats [10; 20; 30; 40]))
  = Some (floats [11; 22; 33; 44]).
Proof. reflexivity. Qed.

Example float_mul_scenario indet :
  simd_apply_mul CFloat.scalar 128 indet
    (Some (floats [1; 2; 3; 4])) (Some (floats [10; 20; 30; 40]))
  = Some (floats [10; 40; 90; 160]).
Proof. reflexivity. Qed.

Example float_dot_scenario indet :
  simd_apply_dot CFloat.scalar 128 indet
    (Some (floats [1; 2; 3; 4])) (Some (floats [10; 20; 30; 40]))
  = Some (CFloat.of_Z 300).
Proof. reflexivity. Qed.

Example float_dot_scenario_256 indet :
  VLEN CFloat.scalar 256 = 8
  ∧ simd_apply_dot CFloat.scalar 256 indet
      (Some (floats [1; 2; 3; 4; 5; 6; 7; 8])) (Some (floats [1; 1; 1; 1; 1; 1; 1; 1]))
    = Some (CFloat.of_Z 36).
Proof. split; reflexivity. Qed.

(** The order of a [float] sum matters: the ascending sum of
    [2^24, 1, 1, 0] is [2^24], that of the reversed vector is [2^24 + 2]. *)
Example float_sum_order_sensitive :
  simd_apply_sum CFloat.scalar 128 (Some (floats [16777216; 1; 1; 0]))
  = Some (CFloat.of_Z 16777216)
  ∧ simd_apply_sum CFloat.scalar 128 (Some (floats [0; 1; 1; 16777216]))
    = Some (CFloat.of_Z 16777218).
Proof. split; reflexivity. Qed.

(** The example program computes the dot product in four ways:
    [simd_apply_dot], [simd_reduce_func] with [dot_func],
    [simd_reduce_expr] with the inline expression, and
    [simd_apply_sum] of [simd_apply_mul]. *)
Example example_program_dot_products indet :
  let veca := floats [1; 2; 3; 4; 5; 6; 7; 8] in
  let vecb := floats [8; 7; 6; 5; 4; 3; 2; 1] in
  simd_apply_dot CFloat.scalar 256 indet (Some veca) (Some vecb)
  = Some (CFloat.of_Z 120)
  ∧ simd_reduce_func CFloat.scalar 256 dot_func (Some (veca, vecb))
    = Some (CFloat.of_Z 120)
  ∧ simd_reduce_expr CFloat.scalar 256 (dot_expr veca vecb) (Some (veca, vecb))
    = Some (CFloat.of_Z 120)
  ∧ simd_apply_sum CFloat.scalar 256
      (simd_apply_mul CFloat.scalar 256 indet (Some veca) (Some vecb))
    = Some (CFloat.of_Z 120).
Proof. repeat split; reflexivity. Qed.

(** An [int] division by zero at one index makes the whole operation
    undefined; on [float] it yields an infinity or a NaN at that index. *)
Example int_div_zero_faults indet :
  simd_apply_div i32 128 indet (Some [5; 5; 5; 5]) (Some [2; 2; 0; 2]) = None.
Proof. reflexivity. Qed.

Example float_div_zero_scenario indet :
  simd_apply_div CFloat.scalar 128 indet
    (Some (floats [1; 0; -1; 2])) (Some (floats [0; 0; 0; 2]))
  = Some [CFloat.pos_inf; CFloat.nan; CFloat.neg_inf; CFloat.of_Z 1].
Proof. reflexivity. Qed.

(** ** The properties of the specification *)

(** C1: for vectors [a] and [b] of one generated type, [simd_apply_add]
    holds [a.v[i] + b.v[i]] at every valid index [i], and likewise
    [simd_apply_sub], [simd_apply_mul] and [simd_apply_div] hold the
    difference, the product and the quotient; the result has [VLEN]
    elements and exists exactly when every elementwise result does. *)
Theorem simd_apply_ops_elementwise {T} (ST : Scalar T) XLEN indet (a b : simd_t T) :
  wf_simd ST XLEN a → wf_simd ST XLEN b →
  elementwise (op_add ST) (vlen ST XLEN) a b
    (simd_apply_add ST XLEN indet (Some a) (Some b))
  ∧ elementwise (op_sub ST) (vlen ST XLEN) a b
      (simd_apply_sub ST XLEN indet (Some a) (Some b))
  ∧ elementwise (op_mul ST) (vlen ST XLEN) a b
      (simd_apply_mul ST XLEN indet (Some a) (Some b))
  ∧ elementwise (op_div ST) (vlen ST XLEN) a b
      (simd_apply_div ST XLEN indet (Some a) (Some b)).
Proof.
  intros Ha Hb.
  unfold simd_apply_add, simd_apply_sub, simd_apply_mul, simd_apply_div.
  rewrite !simd_apply_binop_mapM.
  repeat split_and; [apply (mapM_elem_at_elementwise ST XLEN Plus)
                    |apply (mapM_elem_at_elementwise ST XLEN Minus)
                    |apply (mapM_elem_at_elementwise ST XLEN Star)
                    |apply (mapM_elem_at_elementwise ST XLEN Slash)]; done.
Qed.

Lemma simd_apply_ops_elementwise_witness :
  wf_simd i32 128 [1; 2; 3; 4] ∧ wf_simd i32 128 [10; 20; 30; 40]
  ∧ elementwise (op_add i32) (vlen i32 128) [1; 2; 3; 4] [10; 20; 30; 40]
      (simd_apply_add i32 128 (λ _, 0) (Some [1; 2; 3; 4]) (Some [10; 20; 30; 40])).
Proof.
  split; [reflexivity|]. split; [reflexivity|].
  apply (simd_apply_ops_elementwise i32 128 (λ _, 0) [1; 2; 3; 4] [10; 20; 30; 40]);
    reflexivity.
Defined.

(** C2: [simd_apply_dot(T, a, b)] equals [simd_apply_sum] of the vector
    that [simd_apply_mul(T, a, b)] returns, and that is the elementwise
    product summed from zero in ascending index order. *)
Theorem simd_apply_dot_sum_of_products {T} (ST : Scalar T) XLEN indet indet'
    (a b : simd_t T) :
  wf_simd ST XLEN a → wf_simd ST XLEN b →
  simd_apply_dot ST XLEN indet (Some a) (Some b)
  = (p ← simd_apply_mul ST XLEN indet' (Some a) (Some b);
     simd_apply_sum ST XLEN (Some p))
  ∧ simd_apply_dot ST XLEN indet (Some a) (Some b) = dot_spec ST a b.
Proof.
  intros Ha Hb. split; [apply simd_apply_dot_sum_mul|].
  rewrite (simd_apply_dot_sum_mul ST XLEN indet indet).
  unfold simd_apply_mul, dot_spec, mul_spec.
  rewrite simd_apply_binop_mapM, (mapM_elem_at_zip ST XLEN Star a b Ha Hb). simpl.
  destruct (mapM _ (zip a b)) as [p|] eqn:Hp; simpl; [|done].
  apply simd_apply_sum_spec. unfold wf_simd in *.
  apply length_mapM in Hp. rewrite <- Hp, length_zip. lia.
Qed.

Lemma simd_apply_dot_sum_of_products_witness :
  wf_simd i32 128 [1; 2; 3; 4] ∧ wf_simd i32 128 [10; 20; 30; 40]
  ∧ simd_apply_dot i32 128 (λ _, 7) (Some [1; 2; 3; 4]) (Some [10; 20; 30; 40])
    = dot_spec i32 [1; 2; 3; 4] [10; 20; 30; 40].
Proof.
  split; [reflexivity|]. split; [reflexivity|].
  apply (simd_apply_dot_sum_of_products i32 128 (λ _, 7) (λ _, 9)
           [1; 2; 3; 4] [10; 20; 30; 40]); reflexivity.
Defined.

(** C3: [simd_reduce_func] returns the left-to-right fold that starts
    from the zero accumulator and sets [accum = func(accum, i, ...)] for
    [i] from 0 to [VLEN - 1] in ascending order; [simd_apply_sum] is the
    case [accum += a.v[i]], the sum of the elements of [a] from zero in
    the same order. *)
Theorem simd_reduce_func_left_fold {T} (ST : Scalar T) XLEN {Args}
    (func : T → nat → Args → option T) (vs : Args) (a : simd_t T) :
  wf_simd ST XLEN a →
  simd_reduce_func ST XLEN func (Some vs)
  = fold_spec ST (vlen ST XLEN) (λ accum i, func accum i vs)
  ∧ simd_apply_sum ST XLEN (Some a)
    = simd_reduce_func ST XLEN (λ accum i v, x ← v !! i; op_add ST accum x) (Some a)
  ∧ simd_apply_sum ST XLEN (Some a) = sum_spec ST a.
Proof.
  intros Ha. split; [apply simd_reduce_func_fold|].
  split; [reflexivity|]. by apply simd_apply_sum_spec.
Qed.

Lemma simd_reduce_func_left_fold_witness :
  wf_simd CFloat.scalar 128 (floats [16777216; 1; 1; 0])
  ∧ simd_apply_sum CFloat.scalar 128 (Some (floats [16777216; 1; 1; 0]))
    = sum_spec CFloat.scalar (floats [16777216; 1; 1; 0]).
Proof.
  split; [reflexivity|].
  apply (simd_reduce_func_left_fold CFloat.scalar 128 dot_func
           (floats [1; 2; 3; 4], floats [4; 3; 2; 1]) (floats [16777216; 1; 1; 0])).
  reflexivity.
Defined.

(** C4: for a register width [W] and a scalar type, [VLEN] is
    [W / (8 * sizeof(T))] by truncating integer division: the largest
    count whose elements fit in [W] bits, exact when [W] is a multiple of
    the scalar's width; a width of 100 with a 32-bit scalar gives 3. *)
Theorem VLEN_truncating_division {T} (ST : Scalar T) (W : Z) :
  0 ≤ W < 2 ^ 64 → 0 < sizeof ST → 8 * sizeof ST < 2 ^ 64 →
  VLEN ST W = W ÷ (8 * sizeof ST)
  ∧ VLEN ST W * (8 * sizeof ST) ≤ W < (VLEN ST W + 1) * (8 * sizeof ST)
  ∧ (W mod (8 * sizeof ST) = 0 → VLEN ST W * (8 * sizeof ST) = W)
  ∧ VLEN i32 100 = 3 ∧ VLEN CFloat.scalar 100 = 3.
Proof.
  intros HW Hs Hs8. rewrite (VLEN_div ST W HW Hs Hs8).
  assert (Hd : 0 < 8 * sizeof ST) by lia.
  pose proof (Z.div_mod W (8 * sizeof ST)) as Hdm.
  pose proof (Z.mod_pos_bound W (8 * sizeof ST) Hd) as Hm.
  repeat split_and; try reflexivity.
  - symmetry. apply Z.quot_div_nonneg; lia.
  - nia.
  - nia.
  - intros H0. nia.
Qed.

Lemma VLEN_truncating_division_witness :
  (0 ≤ 128 < 2 ^ 64 ∧ 0 < sizeof i32 ∧ 8 * sizeof i32 < 2 ^ 64)
  ∧ 128 mod (8 * sizeof i32) = 0
  ∧ VLEN i32 128 = 128 ÷ (8 * sizeof i32)
  ∧ VLEN i32 128 * (8 * sizeof i32) = 128.
Proof.
  assert (H1 : 0 ≤ 128 < 2 ^ 64) by (split; [discriminate|reflexivity]).
  assert (H2 : 0 < sizeof i32) by reflexivity.
  assert (H3 : 8 * sizeof i32 < 2 ^ 64) by reflexivity.
  assert (H4 : 128 mod (8 * sizeof i32) = 0) by reflexivity.
  split; [done|]. split; [exact H4|].
  destruct (VLEN_truncating_division i32 128 H1 H2 H3) as (Hq & _ & Hex & _).
  split; [exact Hq|exact (Hex H4)].
Defined.

(** C5: a function declared by [decl_simd_bin_op(name, T, op)] computes
    [c.v[i] = a.v[i] op b.v[i]] for every index and returns [c]; for each
    of the operators [+], [-], [*] and [/] it returns what
    [simd_apply_binop(T, a, b, op)] returns, also when called through
    [simd_bin_op]. *)
Theorem decl_simd_bin_op_agrees_with_binop {T} (ST : Scalar T) XLEN op indet indet'
    (a b : simd_t T) :
  wf_simd ST XLEN a → wf_simd ST XLEN b →
  elementwise (eval_op ST op) (vlen ST XLEN) a b (decl_simd_bin_op ST XLEN op indet a b)
  ∧ decl_simd_bin_op ST XLEN op indet a b
    = simd_apply_binop ST XLEN indet' (Some a) (Some b) op
  ∧ simd_bin_op (decl_simd_bin_op ST XLEN op indet) (Some a) (Some b)
    = simd_apply_binop ST XLEN indet' (Some a) (Some b) op.
Proof.
  intros Ha Hb. simpl.
  rewrite decl_simd_bin_op_mapM, simd_apply_binop_mapM.
  split; [by apply mapM_elem_at_elementwise|done].
Qed.

Lemma decl_simd_bin_op_agrees_with_binop_witness :
  wf_simd i32 128 [5; 5; 5; 5] ∧ wf_simd i32 128 [2; 2; 2; 2]
  ∧ decl_simd_bin_op i32 128 Slash (λ _, 1) [5; 5; 5; 5] [2; 2; 2; 2]
    = simd_apply_binop i32 128 (λ _, 3) (Some [5; 5; 5; 5]) (Some [2; 2; 2; 2]) Slash.
Proof.
  split; [reflexivity|]. split; [reflexivity|].
  apply (decl_simd_bin_op_agrees_with_binop i32 128 Slash (λ _, 1) (λ _, 3)
           [5; 5; 5; 5] [2; 2; 2; 2]); reflexivity.
Defined.

(** C6: when the named function [func] and the inline expression [expr]
    compute the same value from the accumulator, the index and the
    vectors, [simd_reduce_func] and [simd_reduce_expr] over these vectors
    return the same scalar. *)
Theorem simd_reduce_func_expr_agree {T} (ST : Scalar T) XLEN {Args}
    (func : T → nat → Args → option T) (expr : T → nat → option T) (vs : Args) :
  (∀ accum i, (i < vlen ST XLEN)%nat → func accum i vs = expr accum i) →
  simd_reduce_func ST XLEN func (Some vs) = simd_reduce_expr ST XLEN expr (Some vs).
Proof.
  intros Heq. unfold simd_reduce_func, simd_reduce_expr.
  apply for_loop_ext. intros j s Hj. simpl. apply Heq. lia.
Qed.

Lemma simd_reduce_func_expr_agree_witness :
  (∀ accum i, (i < vlen CFloat.scalar 128)%nat →
     dot_func accum i (floats [1; 2; 3; 4], floats [10; 20; 30; 40])
     = dot_expr (floats [1; 2; 3; 4]) (floats [10; 20; 30; 40]) accum i)
  ∧ simd_reduce_func CFloat.scalar 128 dot_func
      (Some (floats [1; 2; 3; 4], floats [10; 20; 30; 40]))
    = simd_reduce_expr CFloat.scalar 128
        (dot_expr (floats [1; 2; 3; 4]) (floats [10; 20; 30; 40]))
        (Some (floats [1; 2; 3; 4], floats [10; 20; 30; 40])).
Proof.
  assert (H : ∀ accum i, (i < vlen CFloat.scalar 128)%nat →
     dot_func accum i (floats [1; 2; 3; 4], floats [10; 20; 30; 40])
     = dot_expr (floats [1; 2; 3; 4]) (floats [10; 20; 30; 40]) accum i)
    by (intros accum i _; reflexivity).
  split; [exact H|].
  exact (simd_reduce_func_expr_agree CFloat.scalar 128 dot_func
           (dot_expr (floats [1; 2; 3; 4]) (floats [10; 20; 30; 40]))
           (floats [1; 2; 3; 4], floats [10; 20; 30; 40]) H).
Defined.

(** C7: [simd_apply_div] applies the scalar type's own division at each
    index and adds no guard, so that it is undefined exactly when one of
    these divisions is: a zero divisor is undefined on every integer type
    and yields an infinity or a NaN on [float]; on [int] the division
    truncates, [5; 5; 5; 5] by [2; 2; 2; 2] giving [2; 2; 2; 2]. *)
Theorem simd_apply_div_native {T} (ST : Scalar T) XLEN indet (a b : simd_t T) :
  wf_simd ST XLEN a → wf_simd ST XLEN b →
  simd_apply_div ST XLEN indet (Some a) (Some b)
  = mapM (λ p, op_div ST p.1 p.2) (zip a b)
  ∧ (∀ it x, op_div (CInt.scalar it) x 0 = None)
  ∧ (∀ s x, op_div CFloat.scalar x (S754_zero s)
            = Some match x with
                   | S754_nan | S754_zero _ => S754_nan
                   | S754_infinity sx | S754_finite sx _ _ => S754_infinity (xorb sx s)
                   end)
  ∧ (∀ indet', simd_apply_div i32 128 indet' (Some [5; 5; 5; 5]) (Some [2; 2; 2; 2])
               = Some [2; 2; 2; 2])
  ∧ op_div i32 (-7) 2 = Some (-3).
Proof.
  intros Ha Hb. repeat split_and.
  - unfold simd_apply_div.
    by rewrite simd_apply_binop_mapM, (mapM_elem_at_zip ST XLEN Slash a b Ha Hb).
  - reflexivity.
  - intros s x. by destruct x.
  - reflexivity.
  - reflexivity.
Qed.

Lemma simd_apply_div_native_witness :
  wf_simd i32 128 [5; 5; 5; 5] ∧ wf_simd i32 128 [2; 2; 0; 2]
  ∧ simd_apply_div i32 128 (λ _, 0) (Some [5; 5; 5; 5]) (Some [2; 2; 0; 2])
    = mapM (λ p, op_div i32 p.1 p.2) (zip [5; 5; 5; 5] [2; 2; 0; 2]).
Proof.
  assert (Ha : wf_simd i32 128 [5; 5; 5; 5]) by reflexivity.
  assert (Hb : wf_simd i32 128 [2; 2; 0; 2]) by reflexivity.
  split; [exact Ha|]. split; [exact Hb|].
  exact (proj1 (simd_apply_div_native i32 128 (λ _, 0) [5; 5; 5; 5] [2; 2; 0; 2] Ha Hb)).
Defined.

(** C8: the operations are functions of the values of their operands.
    A declared function leaves its parameters [a] and [b] as they were
    passed; what it returns, what [simd_apply_binop] returns and what
    [simd_apply_dot] returns do not depend on the indeterminate contents
    of the uninitialised local [c], so two invocations on the same
    operands return the same value.  (The reductions initialise their
    only local, [accum].) *)
Theorem operations_deterministic {T} (ST : Scalar T) XLEN op indet1 indet2
    (a b : simd_t T) (ea eb : option (simd_t T)) (fr : frame T) :
  bin_op_run ST XLEN op indet1 a b = Some fr →
  (arg_a fr = a ∧ arg_b fr = b)
  ∧ decl_simd_bin_op ST XLEN op indet2 a b = Some (loc_c fr)
  ∧ simd_bin_op (decl_simd_bin_op ST XLEN op indet1) ea eb
    = simd_bin_op (decl_simd_bin_op ST XLEN op indet2) ea eb
  ∧ simd_apply_binop ST XLEN indet1 ea eb op = simd_apply_binop ST XLEN indet2 ea eb op
  ∧ simd_apply_dot ST XLEN indet1 ea eb = simd_apply_dot ST XLEN indet2 ea eb.
Proof.
  intros Hrun. repeat split_and.
  - unfold bin_op_run in Hrun. rewrite bin_op_loop in Hrun.
    destruct (for_loop _ _ _ _) as [c'|]; simpl in Hrun; [|done].
    by injection Hrun as <-.
  - unfold bin_op_run in Hrun. rewrite bin_op_loop in Hrun.
    destruct (for_loop _ _ _ _) as [c'|]; simpl in Hrun; [|done].
    by injection Hrun as <-.
  - rewrite decl_simd_bin_op_mapM, <- (decl_simd_bin_op_mapM ST XLEN op indet1).
    unfold decl_simd_bin_op. by rewrite Hrun.
  - unfold simd_bin_op. destruct ea as [va|]; simpl; [|done].
    destruct eb as [vb|]; simpl; [|done].
    by rewrite !decl_simd_bin_op_mapM.
  - by rewrite !simd_apply_binop_expr.
  - unfold simd_apply_dot, simd_apply_mul. by rewrite !simd_apply_binop_expr.
Qed.

Lemma operations_deterministic_witness :
  bin_op_run i32 128 Plus (λ _, 7) [1; 2; 3; 4] [10; 20; 30; 40]
  = Some {| arg_a := [1; 2; 3; 4]; arg_b := [10; 20; 30; 40];
            loc_c := [11; 22; 33; 44] |}
  ∧ decl_simd_bin_op i32 128 Plus (λ i, Z.of_nat i) [1; 2; 3; 4] [10; 20; 30; 40]
    = Some [11; 22; 33; 44].
Proof.
  assert (Hrun : bin_op_run i32 128 Plus (λ _, 7) [1; 2; 3; 4] [10; 20; 30; 40]
                 = Some {| arg_a := [1; 2; 3; 4]; arg_b := [10; 20; 30; 40];
                           loc_c := [11; 22; 33; 44] |}) by reflexivity.
  split; [exact Hrun|].
  exact (proj1 (proj2 (operations_deterministic i32 128 Plus (λ _, 7) (λ i, Z.of_nat i)
                         [1; 2; 3; 4] [10; 20; 30; 40] None None _ Hrun))).
Defined.

(** C9: when the register width is smaller than the scalar, [VLEN] is 0
    and [simd_reduce_func], [simd_reduce_expr] and [simd_apply_sum]
    return the zero accumulator whatever the combining step and the
    argument expressions are, also when these would be undefined: the
    loop body is not run. *)
Theorem reductions_of_no_element {T} (ST : Scalar T) XLEN :
  0 ≤ XLEN < 8 * sizeof ST → 8 * sizeof ST < 2 ^ 64 →
  VLEN ST XLEN = 0
  ∧ (∀ Args (func : T → nat → Args → option T) (args : option Args),
       simd_reduce_func ST XLEN func args = Some (cst0 ST))
  ∧ (∀ Args (expr : T → nat → option T) (args : option Args),
       simd_reduce_expr ST XLEN expr args = Some (cst0 ST))
  ∧ (∀ a : option (simd_t T), simd_apply_sum ST XLEN a = Some (cst0 ST)).
Proof.
  intros HX Hs.
  assert (H0 : VLEN ST XLEN = 0).
  { rewrite VLEN_div by lia. apply Z.div_small. lia. }
  unfold simd_reduce_func, simd_reduce_expr, simd_apply_sum, vlen.
  rewrite H0. by repeat split_and.
Qed.

Lemma reductions_of_no_element_witness :
  (0 ≤ 16 < 8 * sizeof i32 ∧ 8 * sizeof i32 < 2 ^ 64)
  ∧ VLEN i32 16 = 0
  ∧ simd_reduce_func i32 16 (λ _ _ (_ : simd_t Z), None) None = Some 0
  ∧ simd_apply_sum i32 16 None = Some 0.
Proof.
  assert (H1 : 0 ≤ 16 < 8 * sizeof i32) by (split; [discriminate|reflexivity]).
  assert (H2 : 8 * sizeof i32 < 2 ^ 64) by reflexivity.
  split; [done|].
  destruct (reductions_of_no_element i32 16 H1 H2) as (H0 & Hf & _ & Hs).
  split; [exact H0|]. split; [apply Hf|apply Hs].
Defined.

(** C10: on every integer scalar type [simd_apply_add] and
    [simd_apply_mul] are commutative: exchanging the operands changes
    neither whether a result exists nor any of its elements. *)
Theorem int_add_mul_commutative (it : CInt.int_type) XLEN indet indet' (a b : simd_t Z) :
  simd_apply_add (CInt.scalar it) XLEN indet (Some a) (Some b)
  = simd_apply_add (CInt.scalar it) XLEN indet' (Some b) (Some a)
  ∧ simd_apply_mul (CInt.scalar it) XLEN indet (Some a) (Some b)
    = simd_apply_mul (CInt.scalar it) XLEN indet' (Some b) (Some a).
Proof.
  unfold simd_apply_add, simd_apply_mul. rewrite !simd_apply_binop_mapM.
  split; apply mapM_ext; intros j; unfold elem_at; simpl;
    destruct (a !! j) as [x|], (b !! j) as [y|]; simpl; try done;
    unfold CInt.arith.
  - by rewrite Z.add_comm.
  - by rewrite Z.mul_comm.
Qed.

(** ** Further properties of the header *)

Section Composition.

Context {T : Type}.
Variable ST : Scalar T.
Variable XLEN : Z.

Local Abbreviation len := (vlen ST XLEN).

(** A property of the state that every iteration keeps holds when the
    loop is left. *)
Lemma for_loop_invariant {St} (P : St → Prop) (body : nat → St → option St) n i s s' :
  P s → (∀ j t t', P t → body j t = Some t' → P t') →
  for_loop n i body s = Some s' → P s'.
Proof.
  revert i s. induction n as [|n IH]; intros i s Hs Hstep; simpl.
  - by intros [= <-].
  - destruct (body i s) as [t|] eqn:Ht; simpl; [|done].
    apply IH; eauto.
Qed.





End Composition.



(** X2: when [VLEN] is 0 the expression-level generator and the dot
    product never evaluate their arguments: they return the empty vector
    and the zero accumulator also for undefined argument expressions,
    whereas a call through [simd_bin_op] evaluates its arguments first
    and is undefined with them. *)
Theorem no_element_no_argument_evaluation {T} (ST : Scalar T) XLEN indet op
    (ea eb : option (simd_t T)) (a b : simd_t T) :
  vlen ST XLEN = 0%nat →
  simd_apply_binop ST XLEN indet ea eb op = Some []
  ∧ simd_apply_dot ST XLEN indet ea eb = Some (cst0 ST)
  ∧ decl_simd_bin_op ST XLEN op indet a b = Some []
  ∧ simd_bin_op (decl_simd_bin_op ST XLEN op indet) None (Some b) = None
  ∧ simd_bin_op (decl_simd_bin_op ST XLEN op indet) (Some a) None = None.
Proof.
  intros Hn. repeat split_and; try done.
  - by rewrite simd_apply_binop_expr, Hn.
  - unfold simd_apply_dot, simd_apply_sum. by rewrite Hn.
  - by rewrite decl_simd_bin_op_mapM, Hn.
Qed.

Lemma no_element_no_argument_evaluation_witness :
  vlen i32 16 = 0%nat
  ∧ simd_apply_binop i32 16 (λ _, 0) None None Slash = Some []
  ∧ simd_apply_dot i32 16 (λ _, 0) None None = Some 0.
Proof.
  assert (Hn : vlen i32 16 = 0%nat) by reflexivity.
  split; [exact Hn|].
  destruct (no_element_no_argument_evaluation i32 16 (λ _, 0) Slash None None [] [] Hn)
    as (Hb & Hd & _).
  split; [exact Hb|exact Hd].
Defined.


(** ** Scalar arithmetic *)



(** An integer operation whose result is a value of the type yields it. *)
Lemma arith_exact it f x y :
  int_value it (f x y) → CInt.arith it f x y = Some (f x y).
Proof.
  unfold int_value, CInt.arith, CInt.in_range. intros Hr.
  apply andb_true_iff in Hr as [Hlo Hhi].
  apply Z.leb_le in Hlo. apply Z.leb_le in Hhi.
  destruct it; cbn in *; unfold CInt.in_range, CInt.wrap; cbn;
    repeat match goal with
           | |- context [if ?c then _ else _] =>
               let H := fresh in destruct c eqn:H;
               [|apply andb_false_iff in H as [H|H]; apply Z.leb_gt in H; cbn in H; lia]
           end;
    f_equal; try (apply Z.mod_small; lia);
    rewrite Z.mod_small by lia; lia.
Qed.

Section Totals.

Context {T : Type}.
Variable ST : Scalar T.
Variable XLEN : Z.

Lemma sum_spec_defined (l : list T) :
  (∀ x y, is_Some (op_add ST x y)) → is_Some (sum_spec ST l).
Proof.
  intros Hadd. unfold sum_spec. generalize (cst0 ST) as s.
  induction l as [|x l IH]; intros s; simpl; [by eexists|].
  destruct (Hadd s x) as [s' ->]. apply IH.
Qed.

Lemma simd_apply_dot_spec indet a b :
  wf_simd ST XLEN a → wf_simd ST XLEN b →
  simd_apply_dot ST XLEN indet (Some a) (Some b) = dot_spec ST a b.
Proof.
  intros Ha Hb. rewrite (simd_apply_dot_sum_mul ST XLEN indet indet).
  unfold simd_apply_mul, dot_spec, mul_spec.
  rewrite simd_apply_binop_mapM, (mapM_elem_at_zip ST XLEN Star a b Ha Hb). simpl.
  destruct (mapM _ (zip a b)) as [p|] eqn:Hp; simpl; [|done].
  apply simd_apply_sum_spec. unfold wf_simd in *.
  apply length_mapM in Hp. rewrite <- Hp, length_zip. lia.
Qed.

End Totals.

(** X4: on [float] nothing is undefined: the elementwise operations
    (division included), the declared functions, the sum and the dot
    product of vectors of [VLEN] elements all return a result. *)
Theorem float_operations_defined XLEN indet op (a b : simd_t CFloat.float) :
  wf_simd CFloat.scalar XLEN a → wf_simd CFloat.scalar XLEN b →
  is_Some (simd_apply_binop CFloat.scalar XLEN indet (Some a) (Some b) op)
  ∧ is_Some (decl_simd_bin_op CFloat.scalar XLEN op indet a b)
  ∧ is_Some (simd_apply_sum CFloat.scalar XLEN (Some a))
  ∧ is_Some (simd_apply_dot CFloat.scalar XLEN indet (Some a) (Some b)).
Proof.
  intros Ha Hb.
  assert (Hop : ∀ o x y, is_Some (eval_op CFloat.scalar o x y))
    by (intros [] x y; by eexists).
  assert (Hbin : ∀ o, is_Some (mapM (elem_at CFloat.scalar o a b)
                                 (seq 0 (vlen CFloat.scalar XLEN)))).
  { intros o.
    apply (proj1 (mapM_elem_at_elementwise CFloat.scalar XLEN o a b Ha Hb)).
    intros i x y _ _. apply Hop. }
  repeat split_and.
  - rewrite simd_apply_binop_mapM. apply Hbin.
  - rewrite decl_simd_bin_op_mapM. apply Hbin.
  - rewrite simd_apply_sum_spec by done. apply sum_spec_defined, (Hop Plus).
  - rewrite simd_apply_dot_spec by done. unfold dot_spec, mul_spec.
    destruct (Hbin Star) as [p Hp].
    rewrite (mapM_elem_at_zip CFloat.scalar XLEN Star a b Ha Hb) in Hp.
    cbn [eval_op] in Hp. rewrite Hp. simpl. apply sum_spec_defined, (Hop Plus).
Qed.

Lemma float_operations_defined_witness :
  wf_simd CFloat.scalar 128 (floats [1; 0; -1; 2])
  ∧ wf_simd CFloat.scalar 128 (floats [0; 0; 0; 2])
  ∧ is_Some (simd_apply_binop CFloat.scalar 128 (λ _, CFloat.nan)
               (Some (floats [1; 0; -1; 2])) (Some (floats [0; 0; 0; 2])) Slash).
Proof.
  assert (Ha : wf_simd CFloat.scalar 128 (floats [1; 0; -1; 2])) by reflexivity.
  assert (Hb : wf_simd CFloat.scalar 128 (floats [0; 0; 0; 2])) by reflexivity.
  split; [exact Ha|]. split; [exact Hb|].
  exact (proj1 (float_operations_defined 128 (λ _, CFloat.nan) Slash _ _ Ha Hb)).
Defined.

(** ** Integer vectors as numbers *)

Section IntExact.

Variable it : CInt.int_type.

Lemma int_mul_spec_exact (a b : list Z) :
  (∀ i x y, a !! i = Some x → b !! i = Some y → int_value it (x * y)) →
  mul_spec (CInt.scalar it) a b = Some (zip_with Z.mul a b).
Proof.
  unfold mul_spec. revert b. induction a as [|x a IH]; intros b Hr; [done|].
  destruct b as [|y b]; [done|]. simpl.
  rewrite arith_exact by (by apply (Hr 0%nat)). simpl.
  rewrite IH; [done|]. intros i x' y' Hx Hy. by apply (Hr (S i)).
Qed.

Lemma int_sum_fold_exact (l : list Z) (s : Z) :
  (∀ k, (1 ≤ k ≤ length l)%nat → int_value it (s + Zsum (take k l))) →
  foldl (λ acc x, t ← acc; op_add (CInt.scalar it) t x) (Some s) l = Some (s + Zsum l).
Proof.
  revert s. induction l as [|x l IH]; intros s Hr; simpl.
  - by rewrite Z.add_0_r.
  - rewrite arith_exact.
    + simpl. rewrite IH; [by rewrite Z.add_assoc|].
      intros k Hk. specialize (Hr (S k)). simpl in Hr.
      rewrite <- Z.add_assoc. apply Hr. lia.
    + specialize (Hr 1%nat). simpl in Hr.
      rewrite Z.add_0_r in Hr. apply Hr. lia.
Qed.

(** The unsigned types that are not promoted compute modulo [2^bits]. *)
Lemma unsigned_arith it' f x y :
  it' = CInt.U32 ∨ it' = CInt.U64 →
  CInt.arith it' f x y = Some (f x y mod 2 ^ CInt.bits it').
Proof. by intros [-> | ->]. Qed.

Lemma unsigned_sum_fold (M : Z) (f : Z → Z → option Z) (l : list Z) (s : Z) :
  M ≠ 0 → (∀ x y, f x y = Some ((x + y) mod M)) →
  foldl (λ acc x, t ← acc; f t x) (Some (s mod M)) ((λ z, z mod M) <$> l)
  = Some ((s + Zsum l) mod M).
Proof.
  intros HM Hf. revert s. induction l as [|x l IH]; intros s; simpl.
  - by rewrite Z.add_0_r.
  - rewrite Hf, <- Z.add_mod by done. rewrite IH. by rewrite Z.add_assoc.
Qed.

Lemma unsigned_sum_fold_raw (M : Z) (f : Z → Z → option Z) (l : list Z) (s : Z) :
  M ≠ 0 → (∀ x y, f x y = Some ((x + y) mod M)) →
  foldl (λ acc x, t ← acc; f t x) (Some (s mod M)) l = Some ((s + Zsum l) mod M).
Proof.
  intros HM Hf. revert s. induction l as [|x l IH]; intros s; simpl.
  - by rewrite Z.add_0_r.
  - rewrite Hf, Z.add_mod_idemp_l by done. rewrite IH. by rewrite Z.add_assoc.
Qed.

End IntExact.

(** X5: on an integer type the dot product is the number
    [a.v[0]*b.v[0] + ... ] itself, provided every product and every
    partial sum, taken in ascending order, is a value of the type. *)
Theorem int_dot_exact (it : CInt.int_type) XLEN indet (a b : simd_t Z) :
  wf_simd (CInt.scalar it) XLEN a → wf_simd (CInt.scalar it) XLEN b →
  (∀ i x y, a !! i = Some x → b !! i = Some y → int_value it (x * y)) →
  (∀ k, (k ≤ vlen (CInt.scalar it) XLEN)%nat →
        int_value it (Zsum (take k (zip_with Z.mul a b)))) →
  simd_apply_dot (CInt.scalar it) XLEN indet (Some a) (Some b) = Some (Zdot a b).
Proof.
  intros Ha Hb Hmul Hsum. rewrite simd_apply_dot_spec by done.
  unfold dot_spec. rewrite int_mul_spec_exact by done.
  apply (int_sum_fold_exact it (zip_with Z.mul a b) 0).
  intros k Hk. rewrite Z.add_0_l. apply Hsum.
  unfold wf_simd in *. rewrite length_zip_with in Hk. lia.
Qed.

Lemma int_dot_exact_witness :
  simd_apply_dot i32 128 (λ _, 0) (Some [1; -2; 3; 4]) (Some [10; 20; 30; -40])
  = Some (-100).
Proof.
  apply (int_dot_exact CInt.I32 128 (λ _, 0) [1; -2; 3; 4] [10; 20; 30; -40]).
  - reflexivity.
  - reflexivity.
  - intros [|[|[|[|i]]]] x y Hx Hy; simpl in *; simplify_eq; reflexivity.
  - intros [|[|[|[|[|k]]]]] Hk; reflexivity.
Defined.

(** X6: on an integer type the sum of a vector is the number
    [a.v[0] + a.v[1] + ...] itself, provided every partial sum, taken in
    ascending order, is a value of the type. *)
Theorem int_sum_exact (it : CInt.int_type) XLEN (a : simd_t Z) :
  wf_simd (CInt.scalar it) XLEN a →
  (∀ k, (k ≤ vlen (CInt.scalar it) XLEN)%nat → int_value it (Zsum (take k a))) →
  simd_apply_sum (CInt.scalar it) XLEN (Some a) = Some (Zsum a).
Proof.
  intros Ha Hsum. rewrite simd_apply_sum_spec by done.
  apply (int_sum_fold_exact it a 0).
  intros k Hk. rewrite Z.add_0_l. apply Hsum. unfold wf_simd in *. lia.
Qed.

Lemma int_sum_exact_witness :
  simd_apply_sum i32 128 (Some [2147483647; -1; 1; -2147483647]) = Some 0.
Proof.
  apply (int_sum_exact CInt.I32 128 [2147483647; -1; 1; -2147483647]).
  - reflexivity.
  - intros [|[|[|[|[|k]]]]] Hk; reflexivity.
Defined.

(** X7: on [uint32_t] and [uint64_t] sums and dot products are never
    undefined: the sum of a vector and the dot product of two vectors
    are the sum and the dot product as numbers, reduced modulo [2^32] or
    [2^64]. *)
Theorem unsigned_dot_modular (it : CInt.int_type) XLEN indet (a b : simd_t Z) :
  it = CInt.U32 ∨ it = CInt.U64 →
  wf_simd (CInt.scalar it) XLEN a → wf_simd (CInt.scalar it) XLEN b →
  simd_apply_dot (CInt.scalar it) XLEN indet (Some a) (Some b)
  = Some (Zdot a b mod 2 ^ CInt.bits it)
  ∧ simd_apply_sum (CInt.scalar it) XLEN (Some a) = Some (Zsum a mod 2 ^ CInt.bits it).
Proof.
  intros Hit Ha Hb.
  assert (HM : 2 ^ CInt.bits it ≠ 0) by (by destruct Hit as [-> | ->]).
  split; [|rewrite simd_apply_sum_spec by done;
           apply (unsigned_sum_fold_raw (2 ^ CInt.bits it) (op_add (CInt.scalar it))
                    a 0 HM); intros x y; by apply unsigned_arith].
  rewrite simd_apply_dot_spec by done.
  assert (Hmul : mul_spec (CInt.scalar it) a b
                 = Some ((λ z, z mod 2 ^ CInt.bits it) <$> zip_with Z.mul a b)).
  { unfold mul_spec. clear Ha Hb. revert b.
    induction a as [|x a IH]; intros b; [done|].
    destruct b as [|y b]; [done|]. simpl.
    rewrite unsigned_arith by done. simpl. by rewrite IH. }
  unfold dot_spec. rewrite Hmul.
  apply (unsigned_sum_fold (2 ^ CInt.bits it) (op_add (CInt.scalar it))
           (zip_with Z.mul a b) 0 HM).
  intros x y. by apply unsigned_arith.
Qed.

Lemma unsigned_dot_modular_witness :
  simd_apply_dot (CInt.scalar CInt.U32) 128 (λ _, 0)
    (Some [4294967295; 2; 3; 4]) (Some [4294967295; 2; 3; 4])
  = Some 30.
Proof.
  refine (proj1 (unsigned_dot_modular CInt.U32 128 (λ _, 0)
                   [4294967295; 2; 3; 4] [4294967295; 2; 3; 4] _ _ _)).
  - by left.
  - reflexivity.
  - reflexivity.
Defined.

(** ** Symmetry *)






(** ** The example program *)




(** ** Register widths *)

(** X10: a register width that is a positive multiple of 64 bits suits
    every integer type and [float]: [VLEN] is positive and the elements
    fill the width exactly.  The default width, 128, is one. *)
Theorem multiples_of_64_fit_every_scalar (k : Z) (it : CInt.int_type) :
  0 < k → 64 * k < 2 ^ 64 →
  (0 < VLEN (CInt.scalar it) (64 * k)
   ∧ VLEN (CInt.scalar it) (64 * k) * CInt.bits it = 64 * k)
  ∧ (0 < VLEN CFloat.scalar (64 * k) ∧ VLEN CFloat.scalar (64 * k) * 32 = 64 * k)
  ∧ XLEN_or_default None = 64 * 2.
Proof.
  intros Hk Hlt.
  assert (H64 : (2 ^ 64 = 18446744073709551616)%Z) by reflexivity.
  rewrite H64 in Hlt.
  assert (Hint : ∀ s, s = 1 ∨ s = 2 ∨ s = 4 ∨ s = 8 →
            0 < to_size_t (64 * k) / to_size_t (8 * s)
            ∧ to_size_t (64 * k) / to_size_t (8 * s) * (8 * s) = 64 * k).
  { intros s Hs. unfold to_size_t, size_t_bits. rewrite H64.
    rewrite !Z.mod_small by lia.
    destruct Hs as [-> | [-> | [-> | ->]]]; cbn; Z.div_mod_to_equations; lia. }
  split; [|split; [|reflexivity]].
  - assert (Hs : CInt.bits it / 8 = 1 ∨ CInt.bits it / 8 = 2
                 ∨ CInt.bits it / 8 = 4 ∨ CInt.bits it / 8 = 8)
      by (destruct it; vm_compute; tauto).
    destruct it; exact (Hint _ Hs).
  - exact (Hint 4 ltac:(lia)).
Qed.

Lemma multiples_of_64_fit_every_scalar_witness :
  (0 < 2 ∧ 64 * 2 < 2 ^ 64)
  ∧ VLEN (CInt.scalar CInt.I16) (XLEN_or_default None) * 16 = 128.
Proof.
  assert (H1 : 0 < 2) by reflexivity.
  assert (H2 : 64 * 2 < 2 ^ 64) by reflexivity.
  split; [done|].
  exact (proj2 (proj1 (multiples_of_64_fit_every_scalar 2 CInt.I16 H1 H2))).
Defined.

(** ** The example program: [main] *)








(** ** Generated names *)

Section NameLemmas.

Local Open Scope string_scope.

Lemma list_of_append s1 s2 :
  list_ascii_of_string (s1 +:+ s2)
  = (list_ascii_of_string s1 ++ list_ascii_of_string s2)%list.
Proof. induction s1 as [|c s1 IH]; simpl; [done|by rewrite IH]. Qed.

Lemma list_of_string_inj s1 s2 :
  list_ascii_of_string s1 = list_ascii_of_string s2 → s1 = s2.
Proof.
  intros H. rewrite <- (string_of_list_ascii_of_string s1),
    <- (string_of_list_ascii_of_string s2). by rewrite H.
Qed.

Lemma string_app_inv_tail s1 s2 t : s1 +:+ t = s2 +:+ t → s1 = s2.
Proof.
  intros H. apply list_of_string_inj.
  apply (f_equal list_ascii_of_string) in H. rewrite !list_of_append in H.
  by apply app_inv_tail in H.
Qed.

Lemma string_app_assoc s1 s2 s3 : (s1 +:+ s2) +:+ s3 = s1 +:+ s2 +:+ s3.
Proof. apply list_of_string_inj. by rewrite !list_of_append, List.app_assoc. Qed.

Lemma prefix_app p r : String.prefix p (p +:+ r) = true.
Proof.
  induction p as [|c p IH]; simpl; [by destruct r|].
  by destruct (ascii_dec c c).
Qed.

Lemma contains_prefix p s : String.prefix p s = true → contains p s = true.
Proof. intros H. destruct s; simpl in *; by rewrite H. Qed.

Lemma contains_app l p r : contains p (l +:+ p +:+ r) = true.
Proof.
  induction l as [|c l IH].
  - exact (contains_prefix p (p +:+ r) (prefix_app p r)).
  - change (String.prefix p (String c (l +:+ p +:+ r))
            || contains p (l +:+ p +:+ r) = true).
    rewrite IH. apply orb_true_r.
Qed.

Lemma contains_list p s l r :
  list_ascii_of_string s = (l ++ list_ascii_of_string p ++ r)%list →
  contains p s = true.
Proof.
  intros H.
  assert (Hs : s = string_of_list_ascii l +:+ p +:+ string_of_list_ascii r).
  { apply list_of_string_inj.
    by rewrite !list_of_append, !list_ascii_of_string_of_list_ascii. }
  rewrite Hs. apply contains_app.
Qed.

Lemma suffix_t_not_XLEN s : s +:+ "_t" ≠ "XLEN".
Proof.
  intros H. do 5 (destruct s as [|? s]; simpl in H; try discriminate H).
Qed.

Variable xlen : string.

Lemma expand_plain tok : tok ≠ "XLEN" → expand xlen tok = tok.
Proof. intros H. unfold expand. by rewrite decide_False. Qed.

Lemma simd_t_name_eq T :
  T ≠ "XLEN" → simd_t_name xlen T = "simd_v" +:+ T +:+ xlen +:+ "_t".
Proof.
  intros HT. unfold simd_t_name, PPCAT, PPCAT_NX.
  assert (HX : expand xlen "XLEN" = xlen) by (unfold expand; by rewrite decide_True).
  rewrite HX, (expand_plain "_t"), (expand_plain T) by done.
  rewrite (expand_plain (xlen +:+ "_t")) by apply suffix_t_not_XLEN.
  rewrite (expand_plain (T +:+ xlen +:+ "_t"))
    by (rewrite <- string_app_assoc; apply suffix_t_not_XLEN).
  rewrite (expand_plain "v"), (expand_plain "simd_") by done.
  by rewrite (expand_plain ("v" +:+ _)) by done.
Qed.

Lemma simd_op_name_eq T name :
  T ≠ "XLEN" → name ≠ "XLEN" →
  simd_op_name xlen T name = name +:+ "_simd_v" +:+ T +:+ xlen +:+ "_t".
Proof.
  intros HT Hn. unfold simd_op_name, PPCAT at 1 2, PPCAT_NX.
  rewrite simd_t_name_eq by done.
  rewrite (expand_plain name), (expand_plain "_") by done.
  rewrite (expand_plain ("simd_v" +:+ _)) by done.
  by rewrite (expand_plain ("_" +:+ _)) by done.
Qed.

(** The token [_simd_v] does not overlap itself: an occurrence that
    starts inside another one starts with it. *)
Lemma simd_v_no_overlap (k d t1 t2 : list ascii) :
  list_ascii_of_string "_simd_v" = (k ++ d)%list →
  (list_ascii_of_string "_simd_v" ++ t1 = d ++ t2)%list →
  d = [] ∨ k = [].
Proof.
  intros Hk Hd. simpl in Hk, Hd.
  do 8 (destruct k as [|? k]; [by (right + (left; simplify_eq/=; done)
                                   + (simplify_eq/=))|]; simplify_eq/=).
Qed.

End NameLemmas.

Section NameInjectivity.

Local Open Scope string_scope.

(** Where [_simd_v] does not occur in [T2], an occurrence in front of
    [T2] is the first one of the text. *)
Lemma simd_v_first (k l1 : list ascii) (T2 : string) :
  contains "_simd_v" T2 = false →
  (list_ascii_of_string "_simd_v" ++ list_ascii_of_string T2
   = k ++ list_ascii_of_string "_simd_v" ++ l1)%list →
  k = [].
Proof.
  intros Hc H. apply app_eq_inv in H as [(d & Hk & Hd)|(d & Hk & Hd)].
  - destruct (simd_v_no_overlap k d l1 _ Hk Hd) as [-> | ->]; [|done].
    rewrite (contains_list "_simd_v" T2 [] l1) in Hc; [done|].
    rewrite !app_nil_l in *. by symmetry.
  - by rewrite (contains_list "_simd_v" T2 d l1) in Hc.
Qed.

Lemma op_name_text_inj (n1 n2 T1 T2 : string) :
  contains "_simd_v" T1 = false → contains "_simd_v" T2 = false →
  n1 +:+ "_simd_v" +:+ T1 = n2 +:+ "_simd_v" +:+ T2 →
  n1 = n2 ∧ T1 = T2.
Proof.
  intros H1 H2 H. apply (f_equal list_ascii_of_string) in H.
  rewrite !list_of_append in H.
  apply app_eq_inv in H as [(k & Hn & Hk)|(k & Hn & Hk)].
  - pose proof (simd_v_first k _ T2 H2 Hk) as ->.
    rewrite app_nil_r in Hn. rewrite app_nil_l in Hk. apply app_inv_head in Hk.
    split; apply list_of_string_inj; done.
  - pose proof (simd_v_first k _ T1 H1 Hk) as ->.
    rewrite app_nil_r in Hn. rewrite app_nil_l in Hk. apply app_inv_head in Hk.
    split; apply list_of_string_inj; done.
Qed.

End NameInjectivity.

(** X12: [simd_t(T)] is the token [simd_v{T}{XLEN}_t], with [XLEN]
    replaced by its definition (pasting with [PPCAT_NX] alone would keep
    the letters [XLEN]); under one width, different scalar type names
    give different type names. *)
Theorem simd_t_name_injective (xlen T1 T2 : string) :
  T1 ≠ "XLEN"%string → T2 ≠ "XLEN"%string →
  simd_t_name xlen T1 = ("simd_v" +:+ T1 +:+ xlen +:+ "_t")%string
  ∧ PPCAT_NX "XLEN" "_t" = "XLEN_t"%string
  ∧ (simd_t_name xlen T1 = simd_t_name xlen T2 → T1 = T2).
Proof.
  intros H1 H2. split; [by apply simd_t_name_eq|]. split; [done|].
  rewrite !simd_t_name_eq by done. intros H.
  injection H as H. exact (string_app_inv_tail T1 T2 (xlen +:+ "_t") H).
Qed.

Lemma simd_t_name_injective_witness :
  simd_t_name "256" "float" = "simd_vfloat256_t"%string
  ∧ simd_t_name "256" "float" ≠ simd_t_name "256" "int".
Proof.
  assert (H1 : "float"%string ≠ "XLEN"%string) by discriminate.
  assert (H2 : "int"%string ≠ "XLEN"%string) by discriminate.
  destruct (simd_t_name_injective "256" "float" "int" H1 H2) as (Hf & _ & Hinj).
  split; [exact Hf|]. intros H. specialize (Hinj H). discriminate Hinj.
Defined.

(** X13: [simd_op_name(T, name)], the function that
    [decl_simd_bin_op] defines and [simd_bin_op] calls, is the token
    [{name}_simd_v{T}{XLEN}_t]; two declarations get the same function
    name only when their operation names and scalar types are the same,
    as long as [_simd_v] does not occur in the scalar type names. *)
Theorem simd_op_name_injective (xlen T1 T2 n1 n2 : string) :
  T1 ≠ "XLEN"%string → T2 ≠ "XLEN"%string →
  n1 ≠ "XLEN"%string → n2 ≠ "XLEN"%string →
  contains "_simd_v" T1 = false → contains "_simd_v" T2 = false →
  simd_op_name xlen T1 n1 = (n1 +:+ "_simd_v" +:+ T1 +:+ xlen +:+ "_t")%string
  ∧ (simd_op_name xlen T1 n1 = simd_op_name xlen T2 n2 → n1 = n2 ∧ T1 = T2).
Proof.
  intros HT1 HT2 Hn1 Hn2 Hc1 Hc2. split; [by apply simd_op_name_eq|].
  rewrite !simd_op_name_eq by done. intros H.
  apply (op_name_text_inj n1 n2 T1 T2 Hc1 Hc2).
  apply (string_app_inv_tail _ _ (xlen +:+ "_t")).
  by rewrite !string_app_assoc.
Qed.

Lemma simd_op_name_injective_witness :
  simd_op_name "256" "float" "add" = "add_simd_vfloat256_t"%string
  ∧ simd_op_name "256" "float" "add" ≠ simd_op_name "256" "int" "add".
Proof.
  assert (H1 : "float"%string ≠ "XLEN"%string) by discriminate.
  assert (H2 : "int"%string ≠ "XLEN"%string) by discriminate.
  assert (H3 : "add"%string ≠ "XLEN"%string) by discriminate.
  assert (H4 : contains "_simd_v" "float" = false) by reflexivity.
  assert (H5 : contains "_simd_v" "int" = false) by reflexivity.
  destruct (simd_op_name_injective "256" "float" "int" "add" "add" H1 H2 H3 H3 H4 H5)
    as (Hf & Hinj).
  split; [exact Hf|]. intros H. destruct (Hinj H) as [_ Hd]. discriminate Hd.
Defined.

(** Without the condition of X13 two declarations can collide. *)
Example simd_op_name_collision :
  simd_op_name "128" "a_simd_vb" "add" = simd_op_name "128" "b" "add_simd_va".
Proof. reflexivity. Qed.

(** ** Integer elementwise operations as numbers *)

Lemma int_eval_op_exact it op x y :
  int_value it (Z_op op x y) → (op = Slash → y ≠ 0) →
  eval_op (CInt.scalar it) op x y = Some (Z_op op x y).
Proof.
  intros Hr Hy. destruct op; simpl; try (by apply arith_exact).
  unfold CInt.divide. destruct (Z.eqb_spec y 0) as [->|_]; [by destruct Hy|].
  by apply arith_exact.
Qed.

Lemma int_eval_op_overflow it op x y :
  it = CInt.I32 ∨ it = CInt.I64 →
  ¬ int_value it (Z_op op x y) → eval_op (CInt.scalar it) op x y = None.
Proof.
  intros Hit Hr. unfold int_value in Hr.
  assert (Har : ∀ f, f = Z_op op → CInt.arith it f x y = None).
  { intros f ->. unfold CInt.arith.
    destruct Hit as [-> | ->]; cbn in *;
      by destruct (CInt.in_range _ true (Z_op op x y)). }
  destruct op; simpl; try (by apply Har).
  unfold CInt.divide. destruct (y =? 0); [done|by apply Har].
Qed.

(** X14: on an integer type, when at every index the number
    [a.v[i] op b.v[i]] is a value of the type (and no divisor is zero),
    the elementwise operation returns exactly these numbers: no
    wrap-around, truncating quotients. *)
Theorem int_elementwise_exact (it : CInt.int_type) XLEN indet op (a b : simd_t Z) :
  wf_simd (CInt.scalar it) XLEN a → wf_simd (CInt.scalar it) XLEN b →
  (∀ i x y, a !! i = Some x → b !! i = Some y →
            int_value it (Z_op op x y) ∧ (op = Slash → y ≠ 0)) →
  simd_apply_binop (CInt.scalar it) XLEN indet (Some a) (Some b) op
  = Some (zip_with (Z_op op) a b).
Proof.
  intros Ha Hb Hr.
  rewrite simd_apply_binop_mapM, (mapM_elem_at_zip _ XLEN op a b Ha Hb).
  clear Ha Hb. revert b Hr. induction a as [|x a IH]; intros b Hr; [done|].
  destruct b as [|y b]; [done|]. simpl.
  destruct (Hr 0%nat x y eq_refl eq_refl) as [H1 H2].
  rewrite int_eval_op_exact by done. simpl.
  rewrite IH; [done|]. intros i x' y' Hx Hy. by apply (Hr (S i)).
Qed.

Lemma int_elementwise_exact_witness :
  simd_apply_binop i32 128 (λ _, 0) (Some [7; -7; 7; -7]) (Some [2; 2; -2; -2]) Slash
  = Some [3; -3; -3; 3].
Proof.
  apply (int_elementwise_exact CInt.I32 128 (λ _, 0) Slash [7; -7; 7; -7] [2; 2; -2; -2]).
  - reflexivity.
  - reflexivity.
  - intros [|[|[|[|i]]]] x y Hx Hy; simpl in *; simplify_eq; split; done.
Defined.

(** X15: on [int32_t] and [int64_t] one overflowing element makes the
    whole elementwise operation undefined, whatever the other elements
    are. *)
Theorem signed_overflow_undefined (it : CInt.int_type) XLEN indet op (a b : simd_t Z)
    (i : nat) (x y : Z) :
  it = CInt.I32 ∨ it = CInt.I64 →
  a !! i = Some x → b !! i = Some y → (i < vlen (CInt.scalar it) XLEN)%nat →
  ¬ int_value it (Z_op op x y) →
  simd_apply_binop (CInt.scalar it) XLEN indet (Some a) (Some b) op = None
  ∧ decl_simd_bin_op (CInt.scalar it) XLEN op indet a b = None.
Proof.
  intros Hit Hx Hy Hi Hr.
  rewrite simd_apply_binop_mapM, decl_simd_bin_op_mapM.
  assert (mapM (elem_at (CInt.scalar it) op a b) (seq 0 (vlen (CInt.scalar it) XLEN))
          = None); [|done].
  apply mapM_None, Exists_exists. exists i. split.
  - apply list_elem_of_lookup. exists i. by rewrite lookup_seq_lt.
  - unfold elem_at. rewrite Hx, Hy. simpl. by apply int_eval_op_overflow.
Qed.

Lemma signed_overflow_undefined_witness :
  simd_apply_binop i32 128 (λ _, 0)
    (Some [1; 2; 2147483647; 4]) (Some [1; 1; 1; 1]) Plus = None.
Proof.
  refine (proj1 (signed_overflow_undefined CInt.I32 128 (λ _, 0) Plus
                   [1; 2; 2147483647; 4] [1; 1; 1; 1] 2 2147483647 1 _ _ _ _ _)).
  - by left.
  - reflexivity.
  - reflexivity.
  - vm_compute. lia.
  - discriminate.
Defined.
